(** * crypto11: token lookup, context configuration and shutdown

    A shallow embedding of [crypto11.go].  Go values are modelled as
    follows.

    - [int] and [uint] are 64-bit; both are carried as [Z], and the
      conversion [uint(x)] is written out as reduction modulo [2^64].
    - A [*PKCS11Config] is an address into a store of configuration
      structs ([gmap]); [nil] is [None].  [Configure] writes through the
      pointer it is given, so the store is threaded explicitly.
    - Calls into the PKCS#11 binding and into the resource-pool library
      are effects: every call is appended to a log, and what the binding
      answers is given by a record of answers ([Ctx]).
    - A Go function that returns [(value, error)] returns a pair here; a
      run-time panic is the outcome [Panic].
    - [log.Printf] lines are not modelled. *)

From Stdlib Require Import ZArith String List Lia DecimalString.
From stdpp Require Import base option gmap strings list.
Import ListNotations.

Local Open Scope string_scope.
Local Open Scope Z_scope.

(** ** Machine integers *)

Module GoInt.

Definition uint_size : Z := 2 ^ 64.

(** [uint(x)] for [x : int]. *)
Definition to_uint (x : Z) : Z := x mod uint_size.

Definition int_range (x : Z) : Prop := - 2 ^ 63 <= x < 2 ^ 63.

(** [%d] of an integer. *)
Definition fmt_d (x : Z) : string := NilZero.string_of_int (Z.to_int x).

End GoInt.

(** ** Errors *)

(** The five package-level error variables are created once by
    [errors.New]; an error of the PKCS#11 binding is a return code of
    type [pkcs11.Error]; [fmt.Errorf] builds a new error from a
    formatted message each time it is called. *)
Inductive error : Type :=
| ErrTokenNotFound
| ErrKeyNotFound
| ErrCannotOpenPKCS11
| ErrCannotGetRandomData
| ErrUnsupportedKeyType
| PKCS11Error (rv : Z)
| Errorf (msg : string).

#[global] Instance error_eq_dec : EqDecision error.
Proof. solve_decision. Defined.



(** ** Data *)

Definition DefaultMaxSessions : Z := 1024.

Record PKCS11Config : Type := mkConfig {
  Path : string;
  TokenSerial : string;
  TokenLabel : string;
  Pin : string;
  MaxSessions : Z;
  IdleTimeout : Z;
  PoolWaitTimeout : Z
}.

Definition set_MaxSessions (n : Z) (c : PKCS11Config) : PKCS11Config :=
  {| Path := Path c; TokenSerial := TokenSerial c; TokenLabel := TokenLabel c;
     Pin := Pin c; MaxSessions := n; IdleTimeout := IdleTimeout c;
     PoolWaitTimeout := PoolWaitTimeout c |}.

(** The fields of [pkcs11.TokenInfo] that this file reads. *)
Record TokenInfo : Type := mkTokenInfo {
  Label : string;
  SerialNumber : string;
  MaxRwSessionCount : Z
}.

(** A value-or-error pair of the binding: the error is a return code. *)
Inductive answer (A : Type) : Type :=
| Ok (a : A)
| Fail (rv : Z).
Arguments Ok {A} a.
Arguments Fail {A} rv.

(** What a loaded PKCS#11 module answers to the calls made here. *)
Record Ctx : Type := mkCtx {
  Initialize : option Z;
  GetSlotList : bool -> answer (list Z);
  GetTokenInfo : Z -> answer TokenInfo;
  Finalize : option Z
}.

(** [pools.NewResourcePool] belongs to an imported library; the pool is
    represented by the sizes and the timeout it was constructed with.
    The factory argument is the context's own session factory, which is
    defined outside this file. *)
Record ResourcePool : Type := mkPool {
  capacity : Z;
  maxCap : Z;
  idleTimeout : Z
}.

Definition addr : Type := nat.

Record Context : Type := mkContext {
  ctx : option Ctx;
  cfg : option addr;
  token : option TokenInfo;
  slot : Z;
  pool : option ResourcePool
}.

(** ** Effects *)

Inductive event : Type :=
| EvNew (path : string)
| EvInitialize
| EvGetSlotList (tokenPresent : bool)
| EvGetTokenInfo (slotID : Z)
| EvNewResourcePool (cap maxcap idle : Z)
| EvPoolClose
| EvFinalize
| EvDestroy.

Record World : Type := mkWorld {
  store : gmap addr PKCS11Config;
  calls : list event
}.

Inductive outcome (A : Type) : Type :=
| Ret (a : A)
| Panic.
Arguments Ret {A} a.
Arguments Panic {A}.

Definition M (A : Type) : Type := World -> outcome A * World.

Definition ret {A} (a : A) : M A := fun w => (Ret a, w).

Definition bind {A B} (m : M A) (k : A -> M B) : M B :=
  fun w => match m w with
           | (Ret a, w') => k a w'
           | (Panic, w') => (Panic, w')
           end.

Definition panic {A} : M A := fun w => (Panic, w).

Notation "x <- m ;; k" := (bind m (fun x => k))
  (at level 100, m at next level, right associativity).
Notation "m ;;; k" := (bind m (fun _ => k))
  (at level 100, right associativity).

Definition emit (e : event) : M unit :=
  fun w => (Ret tt, {| store := store w; calls := calls w ++ [e] |}).

(** [*p]: a nil pointer panics.  Go has no dangling pointers, so an
    address outside the store does not arise; it is treated like nil. *)
Definition load (p : option addr) : M PKCS11Config :=
  fun w => match p with
           | None => (Panic, w)
           | Some a => match store w !! a with
                       | Some c => (Ret c, w)
                       | None => (Panic, w)
                       end
           end.

Definition assign (p : option addr) (c : PKCS11Config) : M unit :=
  fun w => match p with
           | None => (Panic, w)
           | Some a => (Ret tt, {| store := <[a := c]> (store w); calls := calls w |})
           end.

(** A method call on [c.ctx]; a nil [*pkcs11.Ctx] panics. *)
Definition call {A} (c : Context) (e : event) (f : Ctx -> A) : M A :=
  match ctx c with
  | None => panic
  | Some lib => emit e ;;; ret (f lib)
  end.

Definition of_rv (rv : option Z) : option error :=
  match rv with
  | None => None
  | Some r => Some (PKCS11Error r)
  end.

(** ** findToken *)

Fixpoint findToken (c : Context) (slots : list Z) (serial label : string)
  : M (Z * option TokenInfo * option error) :=
  match slots with
  | [] => ret (0, None, Some ErrTokenNotFound)
  | slot :: rest =>
      r <- call c (EvGetTokenInfo slot) (fun lib => GetTokenInfo lib slot) ;;
      match r with
      | Fail rv => ret (0, None, Some (PKCS11Error rv))
      | Ok tokenInfo =>
          if String.eqb (SerialNumber tokenInfo) serial then
            ret (slot, Some tokenInfo, None)
          else if String.eqb (Label tokenInfo) label then
            ret (slot, Some tokenInfo, None)
          else findToken c rest serial label
      end
  end.

(** ** Configure *)

Definition set_slot_token (s : Z) (t : option TokenInfo) (c : Context) : Context :=
  {| ctx := ctx c; cfg := cfg c; token := t; slot := s; pool := pool c |}.

Definition set_pool (p : option ResourcePool) (c : Context) : Context :=
  {| ctx := ctx c; cfg := cfg c; token := token c; slot := slot c; pool := p |}.

(** The message of the error built when the session limit check fails. *)
Definition session_limit_message (maxSessions maxRw : Z) : string :=
  ("crypto11: provided max sessions value (" ++ GoInt.fmt_d maxSessions
   ++ ") exceeds max value the token supports (" ++ GoInt.fmt_d maxRw
   ++ ")")%string.

Definition NewResourcePool (cap maxcap idle : Z) : M (option ResourcePool) :=
  emit (EvNewResourcePool cap maxcap idle) ;;;
  ret (Some {| capacity := cap; maxCap := maxcap; idleTimeout := idle |}).

Section WithLibrary.

(** [pkcs11.New]: the module found at a path, or nil when it cannot
    be loaded. *)
Variable New : string -> option Ctx.

Definition Configure (config : option addr)
  : M (option Context * option error) :=
  c0 <- load config ;;
  (if MaxSessions c0 =? 0
   then assign config (set_MaxSessions DefaultMaxSessions c0)
   else ret tt) ;;;
  c1 <- load config ;;
  emit (EvNew (Path c1)) ;;;
  let instance :=
    {| ctx := New (Path c1); cfg := config;
       token := None; slot := 0; pool := None |} in
  match ctx instance with
  | None => ret (None, Some ErrCannotOpenPKCS11)
  | Some _ =>
      rv <- call instance EvInitialize Initialize ;;
      match of_rv rv with
      | Some err => ret (None, Some err)
      | None =>
          r <- call instance (EvGetSlotList true)
                 (fun lib => GetSlotList lib true) ;;
          match r with
          | Fail rv => ret (None, Some (PKCS11Error rv))
          | Ok slots =>
              c2 <- load config ;;
              found <- findToken instance slots
                         (TokenSerial c2) (TokenLabel c2) ;;
              let '(s, t, err) := found in
              let instance := set_slot_token s t instance in
              match err with
              | Some e => ret (None, Some e)
              | None =>
                  match token instance with
                  | None => panic
                  | Some tok =>
                      c3 <- load (cfg instance) ;;
                      if (0 <? MaxRwSessionCount tok)
                         && (MaxRwSessionCount tok
                             <? GoInt.to_uint (MaxSessions c3))
                      then
                        ret (None,
                             Some (Errorf (session_limit_message
                                             (MaxSessions c3)
                                             (MaxRwSessionCount tok))))
                      else
                        c4 <- load config ;;
                        p <- NewResourcePool (MaxSessions c4) (MaxSessions c4)
                               (IdleTimeout c4) ;;
                        ret (Some (set_pool p instance), None)
                  end
              end
          end
      end
  end.

End WithLibrary.

(** ** Context.Close *)

(** [c.pool.Close()]; the receiver must not be nil. *)
Definition pool_Close (c : Context) : M unit :=
  match pool c with
  | None => panic
  | Some _ => emit EvPoolClose
  end.

Definition Close (c : Context) : M (option error) :=
  pool_Close c ;;;
  rv <- call c EvFinalize Finalize ;;
  match of_rv rv with
  | Some err => ret (Some err)
  | None => call c EvDestroy (fun _ => tt) ;;; ret None
  end.

(** ** The session pool *)

Module SessionPool.

(** Modelled from the spec: the session pool.  The resource-pool
    library and the session factory are not part of [crypto11.go], which
    only constructs the pool and closes it.  The pool is the state
    machine of the pool contract: a ceiling, the idle sessions, the
    leased sessions, and whether [Close] has started.  Concurrent
    callers are an interleaving of operations; an operation that cannot
    complete in the current state replies [Blocks] and leaves the
    accounting as it is, to be retried once another caller has moved. *)
Record state : Type := mkState {
  ceiling : Z;
  idle : nat;
  leased : nat;
  closing : bool
}.

(** Sessions in existence: outstanding plus idle. *)
Definition sessions (s : state) : nat := (leased s + idle s)%nat.

(** The pool as [Configure] constructs it: no session yet. *)
Definition new (p : ResourcePool) : state :=
  {| ceiling := maxCap p; idle := 0; leased := 0; closing := false |}.

Inductive pool_error : Type :=
| PoolExhausted
| SessionCreationFailed
| PoolClosed.

Inductive reply : Type :=
| Granted
| Failed (e : pool_error)
| Blocks
| Done.

(** [OpAcquire budget factory]: [budget] tells whether wait budget
    remains, [factory] whether the factory can open a session. *)
Inductive op : Type :=
| OpAcquire (budget factory : bool)
| OpRelease
| OpDiscard
| OpEvict
| OpClose.

(** Modelled from the spec: the operations of the pool, which are
    those of the imported library.  Acquire hands out an idle session
    if there is one, else creates one through the factory while the
    count is below the ceiling (a factory failure changes nothing),
    else blocks until the wait budget has elapsed and then fails with
    [PoolExhausted]; after [Close] has started it fails at once.
    Release returns a leased session to the idle set, discard drops a
    leased session, eviction destroys an idle one.  [Close] blocks
    while a session is leased, then destroys the idle sessions and
    leaves the pool closed. *)
Definition step (o : op) (s : state) : reply * state :=
  match o with
  | OpAcquire budget factory =>
      if closing s then (Failed PoolClosed, s)
      else
        match idle s with
        | S i =>
            (Granted, {| ceiling := ceiling s; idle := i;
                         leased := S (leased s); closing := false |})
        | O =>
            if Z.of_nat (sessions s) <? ceiling s then
              if factory then
                (Granted, {| ceiling := ceiling s; idle := 0;
                             leased := S (leased s); closing := false |})
              else (Failed SessionCreationFailed, s)
            else if budget then (Blocks, s)
            else (Failed PoolExhausted, s)
        end
  | OpRelease =>
      match leased s with
      | S l => (Done, {| ceiling := ceiling s; idle := S (idle s);
                         leased := l; closing := closing s |})
      | O => (Done, s)
      end
  | OpDiscard =>
      match leased s with
      | S l => (Done, {| ceiling := ceiling s; idle := idle s;
                         leased := l; closing := closing s |})
      | O => (Done, s)
      end
  | OpEvict =>
      match idle s with
      | S i => (Done, {| ceiling := ceiling s; idle := i;
                         leased := leased s; closing := closing s |})
      | O => (Done, s)
      end
  | OpClose =>
      match leased s with
      | O => (Done, {| ceiling := ceiling s; idle := 0;
                       leased := 0; closing := true |})
      | S _ => (Blocks, {| ceiling := ceiling s; idle := idle s;
                           leased := leased s; closing := true |})
      end
  end.

(** A schedule: the operations of all callers in the order they take
    effect. *)
Fixpoint run (ops : list op) (s : state) : state :=
  match ops with
  | [] => s
  | o :: rest => run rest (snd (step o s))
  end.

Definition bounded (s : state) : Prop :=
  Z.of_nat (sessions s) <= Z.max 0 (ceiling s).

End SessionPool.

(** ** Reading a run *)

Definition result_of {A} (r : outcome A * World) : outcome A := fst r.
Definition calls_of {A} (r : outcome A * World) : list event := calls (snd r).
Definition store_of {A} (r : outcome A * World) := store (snd r).

(** ** Vocabulary of the properties *)

(** A slot whose token can be queried and matches neither value. *)
Definition no_match (lib : Ctx) (serial label : string) (s : Z) : Prop :=
  exists i, GetTokenInfo lib s = Ok i
            /\ SerialNumber i <> serial /\ Label i <> label.

Definition logged (w : World) (es : list event) : World :=
  {| store := store w; calls := calls w ++ es |}.

(** The two-slot scenario: the first slot holds the token with serial
    "A" and label "x", the second the token with serial "B" and label
    "y". *)
Definition two_tokens (lib : Ctx) (s1 s2 : Z) (a b : TokenInfo) : Prop :=
  GetTokenInfo lib s1 = Ok a /\ SerialNumber a = "A" /\ Label a = "x" /\
  GetTokenInfo lib s2 = Ok b /\ SerialNumber b = "B" /\ Label b = "y".

(** The configuration after the first statement of [Configure]. *)
Definition effective (c : PKCS11Config) : PKCS11Config :=
  if MaxSessions c =? 0 then set_MaxSessions DefaultMaxSessions c else c.

(** The world after the first statement: the struct at [a] is the
    effective configuration, every other struct is as it was. *)
Definition defaulted (a : addr) (c : PKCS11Config) (w : World) : World :=
  {| store := <[a := effective c]> (store w); calls := calls w |}.

(** The token [findToken] selects among [slots]: slot [s], reached after
    the slots [pre], holds [tok], which has the serial or the label. *)
Definition selected (lib : Ctx) (slots : list Z) (serial label : string)
    (pre : list Z) (s : Z) (tok : TokenInfo) : Prop :=
  exists post,
    slots = (pre ++ s :: post)%list
    /\ Forall (no_match lib serial label) pre
    /\ GetTokenInfo lib s = Ok tok
    /\ (SerialNumber tok = serial \/ Label tok = label).

(** The session limit check of [Configure]. *)
Definition exceeds_limit (maxSessions maxRw : Z) : bool :=
  (0 <? maxRw) && (maxRw <? GoInt.to_uint maxSessions).

(** The calls [Configure] makes before it looks for the token. *)
Definition opening (c : PKCS11Config) : list event :=
  [EvNew (Path c); EvInitialize; EvGetSlotList true].

(** A slot that is reached and cannot be queried. *)
Definition query_fails (lib : Ctx) (slots : list Z) (serial label : string)
    (pre : list Z) (s rv : Z) : Prop :=
  exists post,
    slots = (pre ++ s :: post)%list
    /\ Forall (no_match lib serial label) pre
    /\ GetTokenInfo lib s = Fail rv.

(** What [Configure] returns for the configuration [c] stored at [a],
    with the calls it has made, one rule per return statement. *)
Inductive configured (New : string -> option Ctx) (a : addr)
    (c : PKCS11Config)
  : option Context * option error -> list event -> Prop :=
| cannot_open :
    New (Path c) = None ->
    configured New a c (None, Some ErrCannotOpenPKCS11) [EvNew (Path c)]
| initialize_failed lib rv :
    New (Path c) = Some lib ->
    Initialize lib = Some rv ->
    configured New a c (None, Some (PKCS11Error rv))
      [EvNew (Path c); EvInitialize]
| slot_list_failed lib rv :
    New (Path c) = Some lib ->
    Initialize lib = None ->
    GetSlotList lib true = Fail rv ->
    configured New a c (None, Some (PKCS11Error rv)) (opening c)
| token_info_failed lib slots pre s rv :
    New (Path c) = Some lib ->
    Initialize lib = None ->
    GetSlotList lib true = Ok slots ->
    query_fails lib slots (TokenSerial c) (TokenLabel c) pre s rv ->
    configured New a c (None, Some (PKCS11Error rv))
      (opening c ++ map EvGetTokenInfo (pre ++ [s]))
| token_not_found lib slots :
    New (Path c) = Some lib ->
    Initialize lib = None ->
    GetSlotList lib true = Ok slots ->
    Forall (no_match lib (TokenSerial c) (TokenLabel c)) slots ->
    configured New a c (None, Some ErrTokenNotFound)
      (opening c ++ map EvGetTokenInfo slots)
| session_limit lib slots pre s tok :
    New (Path c) = Some lib ->
    Initialize lib = None ->
    GetSlotList lib true = Ok slots ->
    selected lib slots (TokenSerial c) (TokenLabel c) pre s tok ->
    exceeds_limit (MaxSessions (effective c)) (MaxRwSessionCount tok) = true ->
    configured New a c
      (None,
       Some (Errorf (session_limit_message (MaxSessions (effective c))
                       (MaxRwSessionCount tok))))
      (opening c ++ map EvGetTokenInfo (pre ++ [s]))
| context_built lib slots pre s tok :
    New (Path c) = Some lib ->
    Initialize lib = None ->
    GetSlotList lib true = Ok slots ->
    selected lib slots (TokenSerial c) (TokenLabel c) pre s tok ->
    exceeds_limit (MaxSessions (effective c)) (MaxRwSessionCount tok) = false ->
    configured New a c
      (Some {| ctx := Some lib; cfg := Some a; token := Some tok; slot := s;
               pool := Some {| capacity := MaxSessions (effective c);
                               maxCap := MaxSessions (effective c);
                               idleTimeout := IdleTimeout c |} |},
       None)
      (opening c ++ map EvGetTokenInfo (pre ++ [s])
       ++ [EvNewResourcePool (MaxSessions (effective c))
             (MaxSessions (effective c)) (IdleTimeout c)]).

(** ** Sample inputs *)

Module Sample.

Definition tokA : TokenInfo :=
  {| Label := "x"; SerialNumber := "A"; MaxRwSessionCount := 0 |}.
Definition tokB : TokenInfo :=
  {| Label := "y"; SerialNumber := "B"; MaxRwSessionCount := 1000 |}.

(** A module with two slots, 3 and 7; slot 9 cannot be queried. *)
Definition lib (fin : option Z) : Ctx :=
  {| Initialize := None;
     GetSlotList := fun _ => Ok [3; 7];
     GetTokenInfo := fun s =>
       if s =? 3 then Ok tokA else if s =? 7 then Ok tokB else Fail 3;
     Finalize := fin |}.

Definition New (path : string) : option Ctx :=
  if String.eqb path "/usr/lib/softhsm.so" then Some (lib None) else None.

Definition conf (serial label : string) (n : Z) : PKCS11Config :=
  {| Path := "/usr/lib/softhsm.so"; TokenSerial := serial;
     TokenLabel := label; Pin := "1234"; MaxSessions := n;
     IdleTimeout := 30; PoolWaitTimeout := 5 |}.

Definition world (c : PKCS11Config) : World :=
  {| store := {[ 1%nat := c ]}; calls := [] |}.

(** The context [Configure] builds for token "A" with [n] sessions. *)
Definition built (n : Z) : Context :=
  {| ctx := Some (lib None); cfg := Some 1%nat; token := Some tokA;
     slot := 3;
     pool := Some {| capacity := n; maxCap := n; idleTimeout := 30 |} |}.

Definition context (fin : option Z) : Context :=
  {| ctx := Some (lib fin); cfg := Some 1%nat; token := Some tokA; slot := 3;
     pool := Some {| capacity := 8; maxCap := 8; idleTimeout := 30 |} |}.

End Sample.

(** ** Configuration files *)

(** Errors as [loadConfigFromFile] and [ConfigureFromFile] return them:
    an error as [Configure] returns it, an error of [os] or of
    [encoding/json], or an error wrapped with a message by the
    [errors] package. *)
Inductive file_error : Type :=
| Plain (e : error)
| Foreign (code : Z)
| Wrapped (cause : file_error) (msg : string).

(** [errors.WithMessage(err, msg)]; a nil error stays nil, which is how
    [loadConfigFromFile] returns no error after a successful decode. *)
Definition WithMessage (err : option file_error) (msg : string)
  : option file_error :=
  match err with
  | None => None
  | Some e => Some (Wrapped e msg)
  end.

Definition of_foreign (code : option Z) : option file_error :=
  match code with
  | None => None
  | Some n => Some (Foreign n)
  end.

(** An open file: what the JSON decoder makes of a struct when it reads
    the file into it, with its error, and what [Close] answers. *)
Record File : Type := mkFile {
  Decode : PKCS11Config -> PKCS11Config * option Z;
  FileClose : option Z
}.

Inductive file_event : Type :=
| EvOpen (name : string)
| EvDecode
| EvFileClose.

Record FileWorld : Type := mkFileWorld {
  world : World;
  files : list file_event
}.

(** [PKCS11Config{}]. *)
Definition zero_config : PKCS11Config :=
  {| Path := ""; TokenSerial := ""; TokenLabel := ""; Pin := "";
     MaxSessions := 0; IdleTimeout := 0; PoolWaitTimeout := 0 |}.

(** The address of a newly allocated struct. *)
Definition new_addr (w : World) : addr := fresh (dom (store w)).

Section WithFiles.

(** [os.Open]. *)
Variable Open : string -> answer File.

(** [pkcs11.New]. *)
Variable New : string -> option Ctx.

(** The deferred function closes the file after the results have been
    evaluated; it assigns the error of [Close] to the local [err],
    which is not a result, so the results are those of the [return]
    statement. *)
Definition loadConfigFromFile (configLocation : string) (fw : FileWorld)
  : (option addr * option file_error) * FileWorld :=
  match Open configLocation with
  | Fail code =>
      ((None,
        WithMessage (Some (Foreign code))
          ("could not open config file: " ++ configLocation)%string),
       {| world := world fw;
          files := files fw ++ [EvOpen configLocation] |})
  | Ok file =>
      let config := new_addr (world fw) in
      let decoded := Decode file zero_config in
      let err := of_foreign (snd decoded) in
      let results :=
        (Some config, WithMessage err "could decode config file:") in
      let closeErr := of_foreign (FileClose file) in
      let err := match err with
                 | None => closeErr
                 | Some _ => err
                 end in
      (results,
       {| world := {| store := <[config := fst decoded]> (store (world fw));
                      calls := calls (world fw) |};
          files := files fw
                   ++ [EvOpen configLocation; EvDecode; EvFileClose] |})
  end.

Definition ConfigureFromFile (configLocation : string) (fw : FileWorld)
  : outcome (option Context * option file_error) * FileWorld :=
  let loaded := loadConfigFromFile configLocation fw in
  match snd (fst loaded) with
  | Some err => (Ret (None, Some err), snd loaded)
  | None =>
      match Configure New (fst (fst loaded)) (world (snd loaded)) with
      | (Ret (c, e), w') =>
          (Ret (c, option_map Plain e),
           {| world := w'; files := files (snd loaded) |})
      | (Panic, w') =>
          (Panic, {| world := w'; files := files (snd loaded) |})
      end
  end.

End WithFiles.

(** A [uint]. *)
Definition uint_range (x : Z) : Prop := 0 <= x < GoInt.uint_size.

(** The calls that release what [Configure] has acquired. *)
Definition releases (e : event) : bool :=
  match e with
  | EvFinalize | EvDestroy | EvPoolClose => true
  | _ => false
  end.

Definition constructs_pool (e : event) : bool :=
  match e with
  | EvNewResourcePool _ _ _ => true
  | _ => false
  end.

(** Sample files: one that decodes to the configuration of token "A"
    with no session count, one that does not decode. *)
Module SampleFiles.

Definition good (close : option Z) : File :=
  {| Decode := fun _ => (Sample.conf "A" "" 0, None); FileClose := close |}.

Definition bad : File :=
  {| Decode := fun c => (c, Some 7); FileClose := None |}.

Definition Open (name : string) : answer File :=
  if String.eqb name "good.json" then Ok (good None)
  else if String.eqb name "bad.json" then Ok bad
  else Fail 2.

Definition start : FileWorld :=
  {| world := Sample.world (Sample.conf "B" "" 8); files := [] |}.

End SampleFiles.

(** * Properties *)

(** ** Token lookup *)

Lemma logged_nil w : logged w [] = w.
Proof. destruct w; unfold logged; simpl. by rewrite app_nil_r. Qed.

Lemma logged_app w es es' : logged (logged w es) es' = logged w (es ++ es').
Proof. unfold logged; simpl. by rewrite app_assoc. Qed.

Lemma call_run {A} c lib e (f : Ctx -> A) w :
  ctx c = Some lib -> call c e f w = (Ret (f lib), logged w [e]).
Proof. intros H. unfold call. by rewrite H. Qed.

Lemma findToken_cons c lib s rest serial label w :
  ctx c = Some lib ->
  findToken c (s :: rest) serial label w =
  match GetTokenInfo lib s with
  | Fail rv => (Ret (0, None, Some (PKCS11Error rv)), logged w [EvGetTokenInfo s])
  | Ok i =>
      if (String.eqb (SerialNumber i) serial || String.eqb (Label i) label)%bool
      then (Ret (s, Some i, None), logged w [EvGetTokenInfo s])
      else findToken c rest serial label (logged w [EvGetTokenInfo s])
  end.
Proof.
  intros H. cbn [findToken]. unfold bind at 1. rewrite (call_run _ lib) by done.
  destruct (GetTokenInfo lib s) as [i|rv]; [|done].
  destruct (String.eqb (SerialNumber i) serial); [done|].
  by destruct (String.eqb (Label i) label).
Qed.

Lemma no_match_eqb lib serial label s :
  no_match lib serial label s ->
  exists i, GetTokenInfo lib s = Ok i
            /\ (String.eqb (SerialNumber i) serial
                || String.eqb (Label i) label)%bool = false.
Proof.
  intros (i & Hi & Hs & Hl). exists i. split; [done|].
  apply orb_false_intro; by apply String.eqb_neq.
Qed.

(** Slots that do not match are queried and passed over. *)
Lemma findToken_skip c lib pre rest serial label w :
  ctx c = Some lib ->
  Forall (no_match lib serial label) pre ->
  findToken c (pre ++ rest) serial label w =
  findToken c rest serial label (logged w (map EvGetTokenInfo pre)).
Proof.
  intros Hc Hpre. revert w.
  induction Hpre as [|s pre Hs _ IH]; intros w.
  - by rewrite logged_nil.
  - destruct (no_match_eqb _ _ _ _ Hs) as (i & Hi & Hb).
    rewrite <- app_comm_cons, (findToken_cons _ lib) by done.
    rewrite Hi, Hb, IH, logged_app. done.
Qed.

Lemma findToken_hit c lib pre s info post serial label w :
  ctx c = Some lib ->
  Forall (no_match lib serial label) pre ->
  GetTokenInfo lib s = Ok info ->
  SerialNumber info = serial \/ Label info = label ->
  findToken c (pre ++ s :: post) serial label w =
  (Ret (s, Some info, None), logged w (map EvGetTokenInfo (pre ++ [s]))).
Proof.
  intros Hc Hpre Hs Hm.
  rewrite (findToken_skip _ lib), (findToken_cons _ lib), Hs by done.
  replace (String.eqb (SerialNumber info) serial
           || String.eqb (Label info) label)%bool with true.
  - by rewrite logged_app, map_app.
  - symmetry. apply orb_true_iff.
    destruct Hm as [Hm|Hm]; [left|right]; by apply String.eqb_eq.
Qed.

Lemma findToken_exhausted c lib slots serial label w :
  ctx c = Some lib ->
  Forall (no_match lib serial label) slots ->
  findToken c slots serial label w =
  (Ret (0, None, Some ErrTokenNotFound), logged w (map EvGetTokenInfo slots)).
Proof.
  intros Hc Hall.
  rewrite <- (app_nil_r slots) at 1.
  by rewrite (findToken_skip _ lib).
Qed.

Ltac findToken_hits pre s info post :=
  let E := fresh "E" in
  lazymatch goal with
  | Hc : ctx ?c = Some ?lib
    |- result_of (findToken ?c _ ?serial ?label ?w) = _ =>
      pose proof (findToken_hit c lib pre s info post serial label w Hc) as E;
      cbn [app] in E; rewrite E; [reflexivity|..]; clear E
  end.

(** C1.  [findToken] returns the first slot of the list whose token has
    the requested serial number or the requested label: every slot
    before it is passed over, so a slot that matches only by label wins
    over a later slot that matches by serial.  When no slot matches it
    returns slot 0, no token and [ErrTokenNotFound].  For the slots
    ["A"/"x"; "B"/"y"]: serial "B" with a label other than "x" gives the
    second slot, label "x" with a serial other than "A" gives the first,
    and serial "Z" with label "z" gives [ErrTokenNotFound]. *)
Theorem findToken_first_match (c : Context) (lib : Ctx) (w : World) :
  ctx c = Some lib ->
  (forall serial label pre s info post,
      Forall (no_match lib serial label) pre ->
      GetTokenInfo lib s = Ok info ->
      SerialNumber info = serial \/ Label info = label ->
      result_of (findToken c (pre ++ s :: post) serial label w)
      = Ret (s, Some info, None))
  /\ (forall serial label s1 i1 s2 i2 post,
         GetTokenInfo lib s1 = Ok i1 ->
         SerialNumber i1 <> serial -> Label i1 = label ->
         GetTokenInfo lib s2 = Ok i2 -> SerialNumber i2 = serial ->
         result_of (findToken c (s1 :: s2 :: post) serial label w)
         = Ret (s1, Some i1, None))
  /\ (forall serial label slots,
         Forall (no_match lib serial label) slots ->
         result_of (findToken c slots serial label w)
         = Ret (0, None, Some ErrTokenNotFound))
  /\ (forall s1 s2 a b,
         two_tokens lib s1 s2 a b ->
         (forall label, label <> "x" ->
            result_of (findToken c [s1; s2] "B" label w)
            = Ret (s2, Some b, None))
         /\ (forall serial, serial <> "A" ->
               result_of (findToken c [s1; s2] serial "x" w)
               = Ret (s1, Some a, None))
         /\ result_of (findToken c [s1; s2] "Z" "z" w)
            = Ret (0, None, Some ErrTokenNotFound)).
Proof.
  intros Hc. split; [|split; [|split]].
  - intros serial label pre s info post Hpre Hs Hm.
    by rewrite (findToken_hit _ lib pre s info post).
  - intros serial label s1 i1 s2 i2 post H1 Hne Hl H2 Hs.
    findToken_hits (@nil Z) s1 i1 (s2 :: post); auto.
  - intros serial label slots Hall.
    by rewrite (findToken_exhausted _ lib).
  - intros s1 s2 a b (Ha & HaS & HaL & Hb & HbS & HbL).
    assert (Hna : forall serial label,
               serial <> "A" -> label <> "x" -> no_match lib serial label s1).
    { intros serial label Hs Hl. exists a. rewrite HaS, HaL. auto. }
    split; [|split].
    + intros label Hl.
      findToken_hits [s1] s2 b (@nil Z); [|done|auto].
      constructor; [|constructor]. apply Hna; [discriminate|congruence].
    + intros serial Hs.
      findToken_hits (@nil Z) s1 a [s2]; auto.
    + rewrite (findToken_exhausted _ lib); auto.
      constructor; [|constructor; [|constructor]].
      * apply Hna; discriminate.
      * exists b. rewrite HbS, HbL. repeat split; [done|discriminate..].
Qed.

Lemma findToken_first_match_witness :
  let c := Sample.context None in
  let w := Sample.world (Sample.conf "B" "" 8) in
  result_of (findToken c [3; 7] "B" "" w) = Ret (7, Some Sample.tokB, None)
  /\ result_of (findToken c [3; 7] "B" "x" w) = Ret (3, Some Sample.tokA, None)
  /\ result_of (findToken c [3; 7] "Z" "z" w)
     = Ret (0, None, Some ErrTokenNotFound).
Proof.
  intros c w.
  destruct (findToken_first_match c (Sample.lib None) w eq_refl)
    as (_ & _ & _ & H).
  destruct (H 3 7 Sample.tokA Sample.tokB) as (HB & Hx & HZ).
  { unfold two_tokens. simpl. repeat split; reflexivity. }
  split; [|split].
  - apply HB. discriminate.
  - apply Hx. discriminate.
  - exact HZ.
Defined.

(** C10.  When [GetTokenInfo] fails for a slot that is reached,
    [findToken] returns that error at once: the slots after it are not
    queried, whatever tokens they hold, and the error is the one of the
    binding, not [ErrTokenNotFound]. *)
Theorem findToken_metadata_error
    (c : Context) (lib : Ctx) (w : World) (serial label : string)
    (pre post : list Z) (s rv : Z) :
  ctx c = Some lib ->
  Forall (no_match lib serial label) pre ->
  GetTokenInfo lib s = Fail rv ->
  findToken c (pre ++ s :: post) serial label w
  = (Ret (0, None, Some (PKCS11Error rv)),
     logged w (map EvGetTokenInfo (pre ++ [s])))
  /\ PKCS11Error rv <> ErrTokenNotFound.
Proof.
  intros Hc Hpre Hs. split; [|discriminate].
  rewrite (findToken_skip _ lib), (findToken_cons _ lib), Hs by done.
  by rewrite logged_app, map_app.
Qed.

Lemma findToken_metadata_error_witness :
  let c := Sample.context None in
  let w := Sample.world (Sample.conf "A" "" 8) in
  GetTokenInfo (Sample.lib None) 3 = Ok Sample.tokA
  /\ SerialNumber Sample.tokA = "A"
  /\ findToken c [9; 3] "A" "" w
     = (Ret (0, None, Some (PKCS11Error 3)), logged w [EvGetTokenInfo 9]).
Proof.
  intros c w. split; [reflexivity|split; [reflexivity|]].
  exact (proj1 (findToken_metadata_error c (Sample.lib None) w "A" ""
                  [] [3] 9 3 eq_refl (List.Forall_nil _) eq_refl)).
Defined.

(** ** Configure *)

Lemma effective_other_fields c :
  Path (effective c) = Path c /\ TokenSerial (effective c) = TokenSerial c
  /\ TokenLabel (effective c) = TokenLabel c /\ Pin (effective c) = Pin c
  /\ IdleTimeout (effective c) = IdleTimeout c
  /\ PoolWaitTimeout (effective c) = PoolWaitTimeout c.
Proof. unfold effective. by destruct (MaxSessions c =? 0). Qed.

Lemma effective_MaxSessions c :
  MaxSessions (effective c)
  = if MaxSessions c =? 0 then DefaultMaxSessions else MaxSessions c.
Proof. unfold effective. by destruct (MaxSessions c =? 0). Qed.

Lemma bind_run {A B} (m : M A) (k : A -> M B) w a w' :
  m w = (Ret a, w') -> bind m k w = k a w'.
Proof. intros H. unfold bind. by rewrite H. Qed.

Lemma load_run a c w : store w !! a = Some c -> load (Some a) w = (Ret c, w).
Proof. intros H. unfold load. by rewrite H. Qed.

Lemma load_defaulted a c w es :
  load (Some a) (logged (defaulted a c w) es)
  = (Ret (effective c), logged (defaulted a c w) es).
Proof. apply load_run. apply lookup_insert_eq. Qed.

Lemma default_run a c w :
  store w !! a = Some c ->
  (if MaxSessions c =? 0
   then assign (Some a) (set_MaxSessions DefaultMaxSessions c)
   else ret tt) w
  = (Ret tt, defaulted a c w).
Proof.
  intros H. unfold defaulted, effective.
  destruct (MaxSessions c =? 0); [done|].
  rewrite insert_id by done. by destruct w.
Qed.

Lemma emit_run e w : emit e w = (Ret tt, logged w [e]).
Proof. reflexivity. Qed.

Lemma call_step {A B} c lib e (f : Ctx -> A) (k : A -> M B) w :
  ctx c = Some lib ->
  bind (call c e f) k w = k (f lib) (logged w [e]).
Proof. intros H. apply bind_run. by apply call_run. Qed.

(** The statements of [Configure] up to the call of [pkcs11.New]. *)
Ltac configure_start Hc :=
  unfold Configure;
  erewrite bind_run by (apply load_run; exact Hc);
  erewrite bind_run by (apply default_run; exact Hc);
  erewrite bind_run by (apply load_run, lookup_insert_eq);
  erewrite bind_run by apply emit_run;
  cbv beta zeta; cbn [ctx];
  rewrite (proj1 (effective_other_fields _)).

Ltac configure_call lib :=
  rewrite (call_step _ lib) by reflexivity; rewrite logged_app.

Ltac configure_load :=
  erewrite bind_run by apply load_defaulted.

Section ConfigureRuns.

Variable New : string -> option Ctx.
Variables (a : addr) (c : PKCS11Config) (w : World).
Hypothesis Hc : store w !! a = Some c.

Lemma Configure_cannot_open :
  New (Path c) = None ->
  Configure New (Some a) w
  = (Ret (None, Some ErrCannotOpenPKCS11),
     logged (defaulted a c w) [EvNew (Path c)]).
Proof. intros Hnew. configure_start Hc. by rewrite Hnew. Qed.

Lemma Configure_initialize_failed lib rv :
  New (Path c) = Some lib ->
  Initialize lib = Some rv ->
  Configure New (Some a) w
  = (Ret (None, Some (PKCS11Error rv)),
     logged (defaulted a c w) [EvNew (Path c); EvInitialize]).
Proof.
  intros Hnew Hinit. configure_start Hc. rewrite Hnew.
  configure_call lib. by rewrite Hinit.
Qed.

Lemma Configure_slot_list_failed lib rv :
  New (Path c) = Some lib ->
  Initialize lib = None ->
  GetSlotList lib true = Fail rv ->
  Configure New (Some a) w
  = (Ret (None, Some (PKCS11Error rv)), logged (defaulted a c w) (opening c)).
Proof.
  intros Hnew Hinit Hslots. configure_start Hc. rewrite Hnew.
  configure_call lib. rewrite Hinit. cbn [of_rv].
  configure_call lib. by rewrite Hslots.
Qed.

(** [findToken] returned an error. *)
Lemma Configure_lookup_failed lib slots s t e es :
  New (Path c) = Some lib ->
  Initialize lib = None ->
  GetSlotList lib true = Ok slots ->
  (forall inst w0, ctx inst = Some lib ->
     findToken inst slots (TokenSerial c) (TokenLabel c) w0
     = (Ret (s, t, Some e), logged w0 es)) ->
  Configure New (Some a) w
  = (Ret (None, Some e), logged (defaulted a c w) (opening c ++ es)).
Proof.
  intros Hnew Hinit Hslots Hfind. configure_start Hc. rewrite Hnew.
  configure_call lib. rewrite Hinit. cbn [of_rv].
  configure_call lib. rewrite Hslots.
  configure_load.
  destruct (effective_other_fields c) as (_ & -> & -> & _).
  erewrite bind_run by (by apply Hfind).
  by rewrite logged_app.
Qed.

(** The run of [Configure] once a token has been selected. *)
Lemma Configure_selected lib slots pre s tok :
  New (Path c) = Some lib ->
  Initialize lib = None ->
  GetSlotList lib true = Ok slots ->
  selected lib slots (TokenSerial c) (TokenLabel c) pre s tok ->
  let n := MaxSessions (effective c) in
  let w' := logged (defaulted a c w)
              (opening c ++ map EvGetTokenInfo (pre ++ [s])) in
  Configure New (Some a) w =
  if exceeds_limit n (MaxRwSessionCount tok) then
    (Ret (None,
          Some (Errorf (session_limit_message n (MaxRwSessionCount tok)))),
     w')
  else
    (Ret (Some {| ctx := Some lib; cfg := Some a;
                  token := Some tok; slot := s;
                  pool := Some {| capacity := n; maxCap := n;
                                  idleTimeout := IdleTimeout c |} |},
          None),
     logged w' [EvNewResourcePool n n (IdleTimeout c)]).
Proof.
  intros Hnew Hinit Hslots (post & -> & Hpre & Htok & Hm) n w'.
  destruct (effective_other_fields c) as (_ & ES & EL & _ & EI & _).
  subst w'. configure_start Hc. rewrite Hnew.
  configure_call lib. rewrite Hinit. cbn [of_rv].
  configure_call lib. rewrite Hslots.
  configure_load. rewrite ES, EL.
  erewrite bind_run by (apply (findToken_hit _ lib); eauto).
  rewrite logged_app. cbn [set_slot_token token cfg].
  configure_load.
  fold n. fold (exceeds_limit n (MaxRwSessionCount tok)).
  destruct (exceeds_limit n (MaxRwSessionCount tok)); [reflexivity|].
  configure_load. unfold NewResourcePool.
  erewrite bind_run by (erewrite bind_run by apply emit_run; reflexivity).
  fold n. by rewrite EI.
Qed.

End ConfigureRuns.

(** *** Every path through [Configure] *)

Lemma findToken_query_fails c lib slots serial label pre s rv w :
  ctx c = Some lib ->
  query_fails lib slots serial label pre s rv ->
  findToken c slots serial label w
  = (Ret (0, None, Some (PKCS11Error rv)),
     logged w (map EvGetTokenInfo (pre ++ [s]))).
Proof.
  intros Hc (post & -> & Hpre & Hs).
  rewrite (findToken_skip _ lib), (findToken_cons _ lib), Hs by done.
  by rewrite logged_app, map_app.
Qed.

(** The loop of [findToken] ends in one of three ways. *)
Lemma slots_cases lib slots serial label :
  (exists pre s tok, selected lib slots serial label pre s tok)
  \/ (exists pre s rv, query_fails lib slots serial label pre s rv)
  \/ Forall (no_match lib serial label) slots.
Proof.
  induction slots as [|s slots IH]; [by right; right|].
  destruct (GetTokenInfo lib s) as [i|rv] eqn:Hs.
  - destruct (String.eqb (SerialNumber i) serial) eqn:E1.
    { left. exists [], s, i, slots. apply String.eqb_eq in E1. auto. }
    destruct (String.eqb (Label i) label) eqn:E2.
    { left. exists [], s, i, slots. apply String.eqb_eq in E2. auto. }
    apply String.eqb_neq in E1, E2.
    assert (Hn : no_match lib serial label s) by (by exists i).
    destruct IH as [(pre & s' & tok & post & -> & Hpre & H)
                   |[(pre & s' & rv & post & -> & Hpre & H)|Hall]].
    + left. exists (s :: pre), s', tok, post. auto.
    + right; left. exists (s :: pre), s', rv, post. auto.
    + right; right. by constructor.
  - right; left. exists [], s, rv, slots. auto.
Qed.

(** With a configuration to read, [Configure] returns, along one of the
    paths above; the struct has been defaulted in place. *)
Lemma Configure_returns New a c w :
  store w !! a = Some c ->
  exists r es,
    Configure New (Some a) w = (Ret r, logged (defaulted a c w) es)
    /\ configured New a c r es.
Proof.
  intros Hc.
  destruct (New (Path c)) as [lib|] eqn:Hnew.
  2: { eexists _, _. split; [by apply Configure_cannot_open|by constructor]. }
  destruct (Initialize lib) as [rv|] eqn:Hinit.
  { eexists _, _. split; [by eapply Configure_initialize_failed|].
    by econstructor. }
  destruct (GetSlotList lib true) as [slots|rv] eqn:Hslots.
  2: { eexists _, _. split; [by eapply Configure_slot_list_failed|].
       by econstructor. }
  destruct (slots_cases lib slots (TokenSerial c) (TokenLabel c))
    as [(pre & s & tok & Hsel)|[(pre & s & rv & Hq)|Hall]].
  - pose proof (Configure_selected New a c w Hc lib slots pre s tok
                  Hnew Hinit Hslots Hsel) as Hrun.
    cbv zeta in Hrun.
    destruct (exceeds_limit (MaxSessions (effective c))
                (MaxRwSessionCount tok)) eqn:Hlim.
    + eexists _, _. split; [exact Hrun|]. by econstructor.
    + eexists _, _. split.
      * rewrite Hrun, logged_app, <- app_assoc. reflexivity.
      * by econstructor.
  - eexists _, _. split.
    + eapply Configure_lookup_failed; eauto.
      intros inst w0 Hi. by eapply findToken_query_fails.
    + by econstructor.
  - eexists _, _. split.
    + eapply Configure_lookup_failed; eauto.
      intros inst w0 Hi. by eapply findToken_exhausted.
    + by econstructor.
Qed.

Lemma Configure_nil New w : Configure New None w = (Panic, w).
Proof. reflexivity. Qed.

Lemma Configure_unallocated New a w :
  store w !! a = None -> Configure New (Some a) w = (Panic, w).
Proof. intros H. unfold Configure, bind, load. by rewrite H. Qed.

Lemma to_uint_small n : 0 <= n < GoInt.uint_size -> GoInt.to_uint n = n.
Proof. intros H. unfold GoInt.to_uint. by apply Z.mod_small. Qed.

Lemma effective_int_range c :
  GoInt.int_range (MaxSessions c) -> GoInt.int_range (MaxSessions (effective c)).
Proof.
  rewrite effective_MaxSessions. destruct (MaxSessions c =? 0); [|done].
  intros _. unfold GoInt.int_range, DefaultMaxSessions. lia.
Qed.


Lemma Sample_selected_B :
  selected (Sample.lib None) [3; 7] "B" "" [3] 7 Sample.tokB.
Proof.
  exists []. split; [reflexivity|]. split; [|split; [reflexivity|by left]].
  constructor; [|constructor].
  exists Sample.tokA. split; [reflexivity|]. split; discriminate.
Qed.

Lemma Sample_selected_A :
  selected (Sample.lib None) [3; 7] "A" "" [] 3 Sample.tokA.
Proof.
  exists [7]. split; [reflexivity|]. split; [constructor|].
  split; [reflexivity|by left].
Qed.

Lemma Sample_int_range n : (-1000000 <? n) && (n <? 1000000) = true ->
  GoInt.int_range n.
Proof. intros H. apply andb_prop in H as [H1 H2]. unfold GoInt.int_range. lia. Qed.


(** A [Configure] that returns was given a configuration to read. *)
Lemma Configure_ret_inv New p w r w' :
  Configure New p w = (Ret r, w') ->
  exists a c es,
    p = Some a /\ store w !! a = Some c
    /\ w' = logged (defaulted a c w) es /\ configured New a c r es.
Proof.
  intros H. destruct p as [a|]; [|by rewrite Configure_nil in H].
  destruct (store w !! a) as [c|] eqn:Hc;
    [|by rewrite Configure_unallocated in H].
  destruct (Configure_returns New a c w Hc) as (r' & es & Hrun & Hr).
  rewrite Hrun in H. injection H as <- <-. by exists a, c, es.
Qed.

Lemma result_of_inv {A} (r : outcome A * World) x :
  result_of r = x -> r = (x, snd r).
Proof. destruct r. unfold result_of. simpl. by intros ->. Qed.




(** C6.  Whenever [Configure] returns a context, the pool of that
    context was constructed with capacity and maximum capacity both
    equal to the maximum session count in force (the struct's
    [MaxSessions] after defaulting, which is also what the caller's
    struct now holds) and with the configured idle timeout. *)
Theorem Configure_pool_sizing
    (New : string -> option Ctx) (p : option addr) (w w' : World)
    (inst : Context) (oe : option error) :
  Configure New p w = (Ret (Some inst, oe), w') ->
  exists a c c',
    p = Some a /\ store w !! a = Some c /\ store w' !! a = Some c'
    /\ MaxSessions c' = MaxSessions (effective c)
    /\ IdleTimeout c' = IdleTimeout c
    /\ oe = None
    /\ pool inst = Some {| capacity := MaxSessions c';
                           maxCap := MaxSessions c';
                           idleTimeout := IdleTimeout c' |}
    /\ last (calls w')
       = Some (EvNewResourcePool (MaxSessions c') (MaxSessions c')
                 (IdleTimeout c')).
Proof.
  intros H.
  destruct (Configure_ret_inv _ _ _ _ _ H) as (a & c & es & -> & Hc & -> & Hr).
  exists a, c, (effective c).
  destruct (effective_other_fields c) as (_ & _ & _ & _ & EI & _).
  split; [done|]. split; [done|].
  split; [apply lookup_insert_eq|]. split; [done|]. split; [done|].
  inversion Hr; subst. rewrite EI. split; [done|]. split; [done|].
  unfold logged; cbn [calls]. by rewrite !app_assoc, last_snoc.
Qed.

Lemma Configure_pool_sizing_witness :
  let w := Sample.world (Sample.conf "A" "" 16) in
  let r := Configure Sample.New (Some 1%nat) w in
  exists a c c',
    Some 1%nat = Some a /\ store w !! a = Some c
    /\ store (snd r) !! a = Some c'
    /\ MaxSessions c' = MaxSessions (effective c)
    /\ IdleTimeout c' = IdleTimeout c
    /\ @None error = None
    /\ pool (Sample.built 16)
       = Some {| capacity := MaxSessions c'; maxCap := MaxSessions c';
                 idleTimeout := IdleTimeout c' |}
    /\ last (calls (snd r))
       = Some (EvNewResourcePool (MaxSessions c') (MaxSessions c')
                 (IdleTimeout c')).
Proof.
  intros w r.
  apply (Configure_pool_sizing Sample.New (Some 1%nat) w (snd r)
           (Sample.built 16) None).
  vm_compute. reflexivity.
Defined.

(** C7.  With [MaxSessions] left at zero, [Configure] uses 1024 in both
    places: the session limit check compares 1024 with the maximum the
    token advertises (and reports 1024 in its error), and when the check
    is passed the pool is constructed with capacity and maximum
    capacity 1024. *)
Theorem Configure_default_sessions
    (New : string -> option Ctx) (a : addr) (c : PKCS11Config) (w : World)
    (lib : Ctx) (slots pre : list Z) (s : Z) (tok : TokenInfo) :
  MaxSessions c = 0 ->
  store w !! a = Some c ->
  New (Path c) = Some lib ->
  Initialize lib = None ->
  GetSlotList lib true = Ok slots ->
  selected lib slots (TokenSerial c) (TokenLabel c) pre s tok ->
  DefaultMaxSessions = 1024
  /\ result_of (Configure New (Some a) w)
     = if (0 <? MaxRwSessionCount tok) && (MaxRwSessionCount tok <? 1024)
       then Ret (None,
                 Some (Errorf (session_limit_message 1024
                                 (MaxRwSessionCount tok))))
       else Ret (Some {| ctx := Some lib; cfg := Some a;
                         token := Some tok; slot := s;
                         pool := Some {| capacity := 1024; maxCap := 1024;
                                         idleTimeout := IdleTimeout c |} |},
                 None).
Proof.
  intros H0 Hc Hnew Hinit Hslots Hsel. split; [reflexivity|].
  rewrite (Configure_selected New a c w Hc lib slots pre s tok) by done.
  cbv zeta. rewrite effective_MaxSessions, H0.
  change (0 =? 0) with true. cbv iota.
  change DefaultMaxSessions with 1024.
  change (exceeds_limit 1024 (MaxRwSessionCount tok))
    with ((0 <? MaxRwSessionCount tok) && (MaxRwSessionCount tok <? 1024)).
  by destruct ((0 <? MaxRwSessionCount tok) && (MaxRwSessionCount tok <? 1024)).
Qed.

Lemma Configure_default_sessions_witness :
  result_of (Configure Sample.New (Some 1%nat)
               (Sample.world (Sample.conf "B" "" 0)))
  = Ret (None, Some (Errorf (session_limit_message 1024 1000)))
  /\ exists inst,
       result_of (Configure Sample.New (Some 1%nat)
                    (Sample.world (Sample.conf "A" "" 0)))
       = Ret (Some inst, None)
       /\ pool inst
          = Some {| capacity := 1024; maxCap := 1024; idleTimeout := 30 |}.
Proof.
  split.
  - exact (proj2 (Configure_default_sessions Sample.New 1%nat
                    (Sample.conf "B" "" 0)
                    (Sample.world (Sample.conf "B" "" 0))
                    (Sample.lib None) [3; 7] [3] 7 Sample.tokB
                    eq_refl eq_refl eq_refl eq_refl eq_refl
                    Sample_selected_B)).
  - eexists. split.
    + exact (proj2 (Configure_default_sessions Sample.New 1%nat
                      (Sample.conf "A" "" 0)
                      (Sample.world (Sample.conf "A" "" 0))
                      (Sample.lib None) [3; 7] [] 3 Sample.tokA
                      eq_refl eq_refl eq_refl eq_refl eq_refl
                      Sample_selected_A)).
    + reflexivity.
Defined.

(** C8.  [Configure] called with a nil configuration panics at its
    first statement: nothing is returned, no call has been made and the
    store is untouched, whatever has been configured before. *)
Theorem Configure_nil_config
    (New : string -> option Ctx) (w : World) :
  result_of (Configure New None w) = Panic
  /\ (forall r, result_of (Configure New None w) <> Ret r)
  /\ calls_of (Configure New None w) = calls w
  /\ store_of (Configure New None w) = store w.
Proof.
  rewrite Configure_nil. unfold result_of, calls_of, store_of. simpl.
  split; [done|]. split; [discriminate|]. done.
Qed.

(** C9.  [Configure] writes through the pointer it is given.  If the
    caller's struct has [MaxSessions] zero, then after the call, on
    whichever path it returned, that struct has [MaxSessions] 1024 and
    every other field as before; a struct with another [MaxSessions],
    and every struct at another address, is unchanged.  A context that
    is returned holds the caller's pointer in [cfg], and [Close] does
    not write to the store. *)
Theorem Configure_mutates_config
    (New : string -> option Ctx) (a : addr) (c : PKCS11Config) (w : World) :
  store w !! a = Some c ->
  let r := Configure New (Some a) w in
  (MaxSessions c = 0 ->
   exists c',
     store_of r !! a = Some c'
     /\ MaxSessions c' = 1024
     /\ Path c' = Path c /\ TokenSerial c' = TokenSerial c
     /\ TokenLabel c' = TokenLabel c /\ Pin c' = Pin c
     /\ IdleTimeout c' = IdleTimeout c
     /\ PoolWaitTimeout c' = PoolWaitTimeout c)
  /\ (MaxSessions c <> 0 -> store_of r = store w)
  /\ (forall b, b <> a -> store_of r !! b = store w !! b)
  /\ (forall inst oe,
        result_of r = Ret (Some inst, oe) ->
        cfg inst = Some a
        /\ store_of (Close inst (snd r)) = store_of r).
Proof.
  intros Hc r.
  destruct (Configure_returns New a c w Hc) as (res & es & Hrun & Hr).
  subst r. rewrite Hrun. unfold store_of, result_of.
  cbn [fst snd logged defaulted store].
  split; [|split; [|split]].
  - intros H0. exists (effective c). split; [apply lookup_insert_eq|].
    rewrite effective_MaxSessions, H0.
    destruct (effective_other_fields c) as (? & ? & ? & ? & ? & ?). done.
  - intros Hn. unfold effective.
    destruct (MaxSessions c =? 0) eqn:E; [apply Z.eqb_eq in E; done|].
    by apply insert_id.
  - intros b Hb. by apply lookup_insert_ne.
  - intros inst oe [= ->]. inversion Hr; subst. split; [done|].
    unfold Close, pool_Close, call, bind, emit, ret. cbn [pool ctx].
    by destruct (Finalize lib).
Qed.

Lemma Configure_mutates_config_witness :
  exists c',
    store_of (Configure Sample.New (Some 1%nat)
                (Sample.world (Sample.conf "A" "" 0))) !! 1%nat = Some c'
    /\ MaxSessions c' = 1024 /\ Pin c' = "1234".
Proof.
  destruct (Configure_mutates_config Sample.New 1%nat (Sample.conf "A" "" 0)
              (Sample.world (Sample.conf "A" "" 0)) eq_refl)
    as (H & _).
  destruct (H eq_refl) as (c' & Hc' & Hm & _ & _ & _ & Hp & _).
  exists c'. split; [exact Hc'|]. split; [exact Hm|exact Hp].
Defined.

(** ** The session pool *)

Module SessionPoolFacts.

Import SessionPool.

Lemma step_ceiling o s : ceiling (snd (step o s)) = ceiling s.
Proof.
  destruct o as [b f| | | |]; unfold step.
  - destruct (closing s); [done|]. destruct (idle s); [|done].
    destruct (Z.of_nat (sessions s) <? ceiling s); [by destruct f|by destruct b].
  - by destruct (leased s).
  - by destruct (leased s).
  - by destruct (idle s).
  - by destruct (leased s).
Qed.

Ltac pool_cases :=
  repeat match goal with
         | |- context [if ?b then _ else _] =>
             match b with
             | (?x <? ?y) => destruct (Z.ltb_spec0 x y)
             | _ => destruct b
             end
         | |- context [match ?x with O => _ | S _ => _ end] => destruct x
         end;
  cbn [snd fst ceiling idle leased closing].

Lemma step_bounded o s : bounded s -> bounded (snd (step o s)).
Proof.
  unfold bounded. intros H. rewrite step_ceiling.
  destruct s as [N i l cl]. unfold sessions in *.
  cbn [ceiling idle leased] in *.
  destruct o as [b f| | | |]; unfold step, sessions;
    cbn [ceiling idle leased closing]; pool_cases; lia.
Qed.

Lemma run_ceiling ops s : ceiling (run ops s) = ceiling s.
Proof.
  revert s. induction ops as [|o ops IH]; intros s; [done|].
  cbn [run]. by rewrite IH, step_ceiling.
Qed.

Lemma run_bounded ops s : bounded s -> bounded (run ops s).
Proof.
  revert s. induction ops as [|o ops IH]; intros s H; [done|].
  cbn [run]. by apply IH, step_bounded.
Qed.

Lemma new_bounded p : bounded (new p).
Proof. unfold bounded, new, sessions. simpl. lia. Qed.

(** [k] more callers acquire from an open pool that has room for
    them and no idle session. *)
Lemma run_acquires N b (k j : nat) :
  Z.of_nat (j + k) <= N ->
  run (repeat (OpAcquire b true) k)
    {| ceiling := N; idle := 0; leased := j; closing := false |}
  = {| ceiling := N; idle := 0; leased := (j + k)%nat; closing := false |}.
Proof.
  revert j. induction k as [|k IH]; intros j Hk.
  - cbn. by rewrite Nat.add_0_r.
  - cbn [repeat run step closing idle]. unfold sessions.
    cbn [leased idle ceiling].
    assert ((Z.of_nat (j + 0) <? N) = true) as -> by (apply Z.ltb_lt; lia).
    cbn [snd]. rewrite IH by lia. f_equal. lia.
Qed.

End SessionPoolFacts.

(** C5.  Modelled on the pool contract.  The pool of a context that
    [Configure] returned has the maximum session count N in force as
    its ceiling.  Under any schedule of acquisitions (with or without
    wait budget, with a working or a failing factory), releases,
    discards, evictions and closes, the sessions in existence, leased
    plus idle, never exceed N.  While N sessions are leased from the
    open pool, one more caller with wait budget blocks and changes
    nothing; once a session is released the caller is granted it.  In
    particular after N callers have acquired from the new pool, caller
    N+1 blocks. *)
Theorem pool_session_bound
    (New : string -> option Ctx) (ptr : option addr) (w w' : World)
    (inst : Context) (oe : option error) :
  Configure New ptr w = (Ret (Some inst, oe), w') ->
  exists a c' p,
    ptr = Some a /\ store w' !! a = Some c' /\ pool inst = Some p
    /\ maxCap p = MaxSessions c'
    /\ (0 <= MaxSessions c' ->
        forall ops,
          Z.of_nat (SessionPool.sessions
                      (SessionPool.run ops (SessionPool.new p)))
          <= MaxSessions c')
    /\ (forall ops s,
          s = SessionPool.run ops (SessionPool.new p) ->
          SessionPool.closing s = false ->
          Z.of_nat (SessionPool.leased s) = MaxSessions c' ->
          (forall factory,
              SessionPool.step (SessionPool.OpAcquire true factory) s
              = (SessionPool.Blocks, s))
          /\ (0 < MaxSessions c' ->
              forall budget factory,
                SessionPool.step (SessionPool.OpAcquire budget factory)
                  (snd (SessionPool.step SessionPool.OpRelease s))
                = (SessionPool.Granted, s)))
    /\ (forall k : nat,
          Z.of_nat k = MaxSessions c' ->
          let s := SessionPool.run
                     (repeat (SessionPool.OpAcquire true true) k)
                     (SessionPool.new p) in
          SessionPool.leased s = k
          /\ SessionPool.step (SessionPool.OpAcquire true true) s
             = (SessionPool.Blocks, s)).
Proof.
  intros H.
  destruct (Configure_ret_inv _ _ _ _ _ H) as (a & c & es & -> & Hc & -> & Hr).
  inversion Hr; subst.
  set (N := MaxSessions (effective c)).
  set (p := {| capacity := N; maxCap := N; idleTimeout := IdleTimeout c |}).
  exists a, (effective c), p.
  split; [done|]. split; [apply lookup_insert_eq|].
  split; [done|]. split; [done|]. fold N.
  assert (Hb : forall ops, SessionPool.bounded
                             (SessionPool.run ops (SessionPool.new p))).
  { intros ops.
    apply SessionPoolFacts.run_bounded, SessionPoolFacts.new_bounded. }
  assert (HN : forall ops,
             SessionPool.ceiling (SessionPool.run ops (SessionPool.new p)) = N).
  { intros ops. by rewrite SessionPoolFacts.run_ceiling. }
  split; [|split].
  - intros H0 ops. specialize (Hb ops). unfold SessionPool.bounded in Hb.
    rewrite HN in Hb. lia.
  - intros ops st -> Hcl Hl.
    specialize (Hb ops). specialize (HN ops).
    unfold SessionPool.bounded, SessionPool.sessions in Hb. rewrite HN in Hb.
    destruct (SessionPool.run ops (SessionPool.new p)) as [N' i l cl].
    cbn [SessionPool.ceiling SessionPool.idle SessionPool.leased
         SessionPool.closing] in *.
    subst N' cl. assert (i = 0%nat) as -> by lia.
    split.
    + intros factory. unfold SessionPool.step, SessionPool.sessions.
      cbn [SessionPool.ceiling SessionPool.idle SessionPool.leased
           SessionPool.closing].
      by assert ((Z.of_nat (l + 0) <? N) = false) as ->
          by (apply Z.ltb_ge; lia).
    + intros Hpos budget factory. destruct l as [|l]; [cbn in Hl; lia|].
      reflexivity.
  - intros k Hk st. subst st. unfold SessionPool.new. cbn [maxCap p].
    rewrite (SessionPoolFacts.run_acquires N true k 0) by (cbn; lia).
    cbn [plus]. split; [done|].
    unfold SessionPool.step, SessionPool.sessions.
    cbn [SessionPool.ceiling SessionPool.idle SessionPool.leased
         SessionPool.closing].
    by assert ((Z.of_nat (k + 0) <? N) = false) as ->
        by (apply Z.ltb_ge; lia).
Qed.

Lemma pool_session_bound_witness :
  let p := {| capacity := 16; maxCap := 16; idleTimeout := 30 |} in
  let full := SessionPool.run (repeat (SessionPool.OpAcquire true true) 16)
                (SessionPool.new p) in
  Configure Sample.New (Some 1%nat) (Sample.world (Sample.conf "A" "" 16))
  = (Ret (Some (Sample.built 16), None),
     snd (Configure Sample.New (Some 1%nat)
            (Sample.world (Sample.conf "A" "" 16))))
  /\ SessionPool.leased full = 16%nat
  /\ SessionPool.step (SessionPool.OpAcquire true true) full
     = (SessionPool.Blocks, full).
Proof.
  intros p full.
  assert (Hrun :
    Configure Sample.New (Some 1%nat) (Sample.world (Sample.conf "A" "" 16))
    = (Ret (Some (Sample.built 16), None),
       snd (Configure Sample.New (Some 1%nat)
              (Sample.world (Sample.conf "A" "" 16)))))
    by (vm_compute; reflexivity).
  split; [exact Hrun|].
  destruct (pool_session_bound _ _ _ _ _ _ Hrun)
    as (a & c' & p' & Ha & Hc' & Hp & _ & _ & _ & Hk).
  injection Ha as <-. injection Hp as <-.
  vm_compute in Hc'. injection Hc' as <-.
  exact (Hk 16%nat eq_refl).
Defined.

(** ** Close *)

(** C2, as the code has it.  [Close] on a context with a pool and a
    library connection calls, in this order, the pool's [Close],
    [Finalize] and [Destroy], and returns nil.  When [Finalize] fails,
    its error is returned after the pool has been closed, and [Destroy]
    is not called.  The pool's [Close] is the step of the pool contract:
    it completes only when no session is leased, leaving the pool
    closed with no idle session, and blocks otherwise. *)
Theorem Close_sequence
    (c : Context) (lib : Ctx) (p : ResourcePool) (w : World) :
  ctx c = Some lib ->
  pool c = Some p ->
  (Finalize lib = None ->
   Close c w = (Ret None, logged w [EvPoolClose; EvFinalize; EvDestroy]))
  /\ (forall rv,
        Finalize lib = Some rv ->
        Close c w
        = (Ret (Some (PKCS11Error rv)), logged w [EvPoolClose; EvFinalize]))
  /\ (forall st,
        (SessionPool.leased st = 0%nat ->
         SessionPool.step SessionPool.OpClose st
         = (SessionPool.Done,
            {| SessionPool.ceiling := SessionPool.ceiling st;
               SessionPool.idle := 0; SessionPool.leased := 0;
               SessionPool.closing := true |}))
        /\ (SessionPool.leased st <> 0%nat ->
            fst (SessionPool.step SessionPool.OpClose st)
            = SessionPool.Blocks)).
Proof.
  intros Hc Hp. split; [|split].
  - intros Hf. unfold Close, pool_Close. rewrite Hp.
    erewrite bind_run by apply emit_run.
    rewrite (call_step _ lib), Hf by done. cbn [of_rv].
    rewrite (call_step _ lib) by done.
    unfold ret. by rewrite !logged_app.
  - intros rv Hf. unfold Close, pool_Close. rewrite Hp.
    erewrite bind_run by apply emit_run.
    rewrite (call_step _ lib), Hf by done. cbn [of_rv].
    unfold ret. by rewrite !logged_app.
  - intros st. unfold SessionPool.step. split.
    + by intros ->.
    + intros Hl. by destruct (SessionPool.leased st).
Qed.

Lemma Close_sequence_witness :
  let w := Sample.world (Sample.conf "A" "" 8) in
  Close (Sample.context None) w
  = (Ret None, logged w [EvPoolClose; EvFinalize; EvDestroy])
  /\ Close (Sample.context (Some 5)) w
     = (Ret (Some (PKCS11Error 5)), logged w [EvPoolClose; EvFinalize]).
Proof.
  intros w. split.
  - exact (proj1 (Close_sequence (Sample.context None) (Sample.lib None)
                    {| capacity := 8; maxCap := 8; idleTimeout := 30 |} w
                    eq_refl eq_refl) eq_refl).
  - exact (proj1 (proj2 (Close_sequence (Sample.context (Some 5))
                           (Sample.lib (Some 5))
                           {| capacity := 8; maxCap := 8; idleTimeout := 30 |}
                           w eq_refl eq_refl)) 5 eq_refl).
Defined.

(** C2, as stated, fails: when [Finalize] fails with code 5, [Close]
    returns that error after closing the pool, and the library
    connection is not destroyed. *)
Lemma Close_finalize_failure_skips_destroy :
  let r := Close (Sample.context (Some 5))
             (Sample.world (Sample.conf "A" "" 8)) in
  result_of r = Ret (Some (PKCS11Error 5))
  /\ calls_of r = [EvPoolClose; EvFinalize]
  /\ ~ In EvDestroy (calls_of r).
Proof.
  intros r. split; [reflexivity|]. split; [reflexivity|].
  intros [H|[H|[]]]; discriminate H.
Qed.

(** * Further properties *)

(** ** findToken *)

(** What [findToken] does for any list of slots, by the way its loop
    ends. *)
Lemma findToken_run c lib slots serial label w :
  ctx c = Some lib ->
  (exists pre s tok,
      selected lib slots serial label pre s tok
      /\ findToken c slots serial label w
         = (Ret (s, Some tok, None),
            logged w (map EvGetTokenInfo (pre ++ [s]))))
  \/ (exists pre s rv,
         query_fails lib slots serial label pre s rv
         /\ findToken c slots serial label w
            = (Ret (0, None, Some (PKCS11Error rv)),
               logged w (map EvGetTokenInfo (pre ++ [s]))))
  \/ (Forall (no_match lib serial label) slots
      /\ findToken c slots serial label w
         = (Ret (0, None, Some ErrTokenNotFound),
            logged w (map EvGetTokenInfo slots))).
Proof.
  intros Hc.
  destruct (slots_cases lib slots serial label)
    as [(pre & s & tok & Hsel)|[(pre & s & rv & Hq)|Hall]].
  - left. exists pre, s, tok. split; [done|].
    destruct Hsel as (post & -> & Hpre & Hs & Hm).
    by apply (findToken_hit _ lib).
  - right; left. exists pre, s, rv. split; [done|].
    by apply (findToken_query_fails _ lib).
  - right; right. split; [done|]. by apply (findToken_exhausted _ lib).
Qed.

Lemma take_reached {A} (pre : list A) s post :
  take (S (length pre)) (pre ++ s :: post) = (pre ++ [s])%list
  /\ (pre ++ s :: post)%list !! length pre = Some s.
Proof.
  split.
  - induction pre as [|x pre IH]; [done|]. cbn. f_equal. exact IH.
  - by rewrite list_lookup_middle.
Qed.

(** X1.  With a library connection, [findToken] returns for every list
    of slots; it leaves the store alone and queries the slots in list
    order without skipping any, stopping at the slot it returns or at
    the slot whose query fails: the slots queried are the first [n] of
    the list, and a slot that is returned is the last one queried. *)
Theorem findToken_queries_in_order
    (c : Context) (lib : Ctx) (slots : list Z) (serial label : string)
    (w : World) :
  ctx c = Some lib ->
  exists r n,
    findToken c slots serial label w
    = (Ret r, {| store := store w;
                 calls := calls w ++ map EvGetTokenInfo (take n slots) |})
    /\ (n <= length slots)%nat
    /\ (forall s tok oe,
          r = (s, Some tok, oe) ->
          (0 < n)%nat /\ slots !! pred n = Some s).
Proof.
  intros Hc.
  destruct (findToken_run c lib slots serial label w Hc)
    as [(pre & s & tok & (post & -> & _) & ->)
       |[(pre & s & rv & (post & -> & _) & ->)|(_ & ->)]].
  - exists (s, Some tok, None), (S (length pre)).
    destruct (take_reached pre s post) as [-> Hl].
    split; [done|]. split; [rewrite length_app; cbn; lia|].
    intros s' tok' oe [= <- <- <-]. split; [lia|done].
  - exists (0, None, Some (PKCS11Error rv)), (S (length pre)).
    destruct (take_reached pre s post) as [-> Hl].
    split; [done|]. split; [rewrite length_app; cbn; lia|].
    intros s' tok' oe [=].
  - exists (0, None, Some ErrTokenNotFound), (length slots).
    rewrite firstn_all. split; [done|]. split; [done|].
    intros s' tok' oe [=].
Qed.

Lemma findToken_queries_in_order_witness :
  exists r n,
    findToken (Sample.context None) [3; 7; 9] "B" ""
      (Sample.world (Sample.conf "B" "" 8))
    = (Ret r,
       {| store := store (Sample.world (Sample.conf "B" "" 8));
          calls := [] ++ map EvGetTokenInfo (take n [3; 7; 9]) |})
    /\ (n <= 3)%nat
    /\ (forall s tok oe,
          r = (s, Some tok, oe) ->
          (0 < n)%nat /\ [3; 7; 9] !! pred n = Some s).
Proof.
  exact (findToken_queries_in_order (Sample.context None) (Sample.lib None)
           [3; 7; 9] "B" "" (Sample.world (Sample.conf "B" "" 8)) eq_refl).
Defined.

(** X2.  What [findToken] returns is justified by the slots: a slot
    returned without error is in the list, holds the token returned
    with it, that token has the requested serial or label, and every
    slot before it was queried and matched neither; an error comes with
    slot 0 and no token, and is [ErrTokenNotFound] only if every slot
    was queried and matched neither, else the code of the query that
    failed. *)
Theorem findToken_sound
    (c : Context) (lib : Ctx) (slots : list Z) (serial label : string)
    (w : World) (s : Z) (ot : option TokenInfo) (oe : option error) :
  ctx c = Some lib ->
  result_of (findToken c slots serial label w) = Ret (s, ot, oe) ->
  match oe with
  | None =>
      exists tok pre,
        ot = Some tok /\ selected lib slots serial label pre s tok
  | Some e =>
      s = 0 /\ ot = None
      /\ ((e = ErrTokenNotFound
           /\ Forall (no_match lib serial label) slots)
          \/ (exists pre s' rv,
                 e = PKCS11Error rv
                 /\ query_fails lib slots serial label pre s' rv))
  end.
Proof.
  intros Hc H.
  destruct (findToken_run c lib slots serial label w Hc)
    as [(pre & s0 & tok & Hsel & Hrun)
       |[(pre & s0 & rv & Hq & Hrun)|(Hall & Hrun)]];
    rewrite Hrun in H; injection H as <- <- <-.
  - by exists tok, pre.
  - split; [done|]. split; [done|]. right. by exists pre, s0, rv.
  - split; [done|]. split; [done|]. by left.
Qed.

Lemma findToken_sound_witness :
  exists tok pre,
    Some Sample.tokB = Some tok
    /\ selected (Sample.lib None) [3; 7] "B" "" pre 7 tok.
Proof.
  exact (findToken_sound (Sample.context None) (Sample.lib None) [3; 7]
           "B" "" (Sample.world (Sample.conf "B" "" 8)) 7
           (Some Sample.tokB) None eq_refl eq_refl).
Defined.

(** ** Configure *)

Lemma to_uint_negative n :
  - 2 ^ 63 <= n < 0 -> GoInt.to_uint n = n + 2 ^ 64.
Proof.
  intros H. unfold GoInt.to_uint, GoInt.uint_size.
  symmetry. apply (Z.mod_unique_pos n (2 ^ 64) (-1)); lia.
Qed.

Lemma exceeds_limit_spec n m :
  GoInt.int_range n ->
  exceeds_limit n m = true
  <-> 0 < m /\ (m < n \/ (n < 0 /\ m < n + 2 ^ 64)).
Proof.
  intros Hn. unfold GoInt.int_range in Hn. unfold exceeds_limit.
  rewrite andb_true_iff, Z.ltb_lt, Z.ltb_lt.
  destruct (Z.lt_ge_cases n 0) as [Hneg|Hpos].
  - rewrite to_uint_negative by lia. lia.
  - rewrite to_uint_small by (unfold GoInt.uint_size; lia). lia.
Qed.

(** X3.  The session limit check converts the signed session count to
    [uint].  Once a token is selected, [Configure] returns the
    session-limit error exactly when the token advertises a maximum m
    above zero and either the count n in force is larger than m, or n
    is negative and m is below n + 2^64; so a negative count is refused
    by every token that advertises a maximum below 2^63. *)
Theorem Configure_limit_check_exact
    (New : string -> option Ctx) (a : addr) (c : PKCS11Config) (w : World)
    (lib : Ctx) (slots pre : list Z) (s : Z) (tok : TokenInfo) :
  store w !! a = Some c ->
  GoInt.int_range (MaxSessions c) ->
  New (Path c) = Some lib ->
  Initialize lib = None ->
  GetSlotList lib true = Ok slots ->
  selected lib slots (TokenSerial c) (TokenLabel c) pre s tok ->
  let n := MaxSessions (effective c) in
  let m := MaxRwSessionCount tok in
  (result_of (Configure New (Some a) w)
   = Ret (None, Some (Errorf (session_limit_message n m)))
   <-> 0 < m /\ (m < n \/ (n < 0 /\ m < n + 2 ^ 64)))
  /\ (n < 0 -> 0 < m < 2 ^ 63 ->
      result_of (Configure New (Some a) w)
      = Ret (None, Some (Errorf (session_limit_message n m)))).
Proof.
  intros Hc Hrange Hnew Hinit Hslots Hsel n m.
  pose proof (Configure_selected New a c w Hc lib slots pre s tok
                Hnew Hinit Hslots Hsel) as Hrun.
  cbv zeta in Hrun. fold n m in Hrun.
  apply effective_int_range in Hrange. fold n in Hrange.
  pose proof (exceeds_limit_spec n m Hrange) as Hspec.
  assert (Hiff :
    result_of (Configure New (Some a) w)
    = Ret (None, Some (Errorf (session_limit_message n m)))
    <-> 0 < m /\ (m < n \/ (n < 0 /\ m < n + 2 ^ 64))).
  { rewrite <- Hspec, Hrun.
    destruct (exceeds_limit n m); split; try done. }
  split; [exact Hiff|].
  intros Hneg Hm. apply Hiff. unfold GoInt.int_range in Hrange. lia.
Qed.

Lemma Configure_limit_check_exact_witness :
  result_of (Configure Sample.New (Some 1%nat)
               (Sample.world (Sample.conf "B" "" (-1))))
  = Ret (None, Some (Errorf (session_limit_message (-1) 1000))).
Proof.
  apply (proj2 (Configure_limit_check_exact Sample.New 1%nat
                  (Sample.conf "B" "" (-1))
                  (Sample.world (Sample.conf "B" "" (-1)))
                  (Sample.lib None) [3; 7] [3] 7 Sample.tokB eq_refl
                  (Sample_int_range (-1) eq_refl) eq_refl eq_refl eq_refl
                  Sample_selected_B)).
  - reflexivity.
  - split; reflexivity.
Defined.

(** X4.  When [Configure] returns, exactly one of the context and the
    error is nil: it never returns a context together with an error,
    and never returns neither. *)
Theorem Configure_context_xor_error
    (New : string -> option Ctx) (p : option addr) (w w' : World)
    (oc : option Context) (oe : option error) :
  Configure New p w = (Ret (oc, oe), w') ->
  (is_Some oc /\ oe = None) \/ (oc = None /\ is_Some oe).
Proof.
  intros H.
  destruct (Configure_ret_inv _ _ _ _ _ H) as (a & c & es & _ & _ & _ & Hr).
  inversion Hr; subst; eauto.
Qed.

Lemma Configure_context_xor_error_witness :
  (is_Some (Some (Sample.built 16)) /\ @None error = None)
  \/ (Some (Sample.built 16) = None /\ is_Some (@None error)).
Proof.
  apply (Configure_context_xor_error Sample.New (Some 1%nat)
           (Sample.world (Sample.conf "A" "" 16))
           (snd (Configure Sample.New (Some 1%nat)
                   (Sample.world (Sample.conf "A" "" 16))))).
  vm_compute. reflexivity.
Defined.

Lemma queries_plain slots :
  Forall (fun e => releases e = false /\ constructs_pool e = false)
    (map EvGetTokenInfo slots).
Proof. induction slots; constructor; auto. Qed.

Lemma opening_plain c :
  Forall (fun e => releases e = false /\ constructs_pool e = false)
    (opening c).
Proof. repeat constructor. Qed.

(** The calls of a run of [Configure]: calls that neither release
    anything nor construct a pool, followed, exactly when a context is
    returned, by the construction of the pool. *)
Lemma configured_calls New a c r es :
  configured New a c r es ->
  exists plain,
    Forall (fun e => releases e = false /\ constructs_pool e = false) plain
    /\ ((fst r = None /\ es = plain)
        \/ (is_Some (fst r)
            /\ exists n idle, es = (plain ++ [EvNewResourcePool n n idle])%list)).
Proof.
  intros Hr. inversion Hr; subst; cbn [fst].
  - exists [EvNew (Path c)]. split; [repeat constructor|by left].
  - exists [EvNew (Path c); EvInitialize]. split; [repeat constructor|by left].
  - exists (opening c). split; [apply opening_plain|by left].
  - eexists. split; [|by left].
    apply Forall_app. split; [apply opening_plain|apply queries_plain].
  - eexists. split; [|by left].
    apply Forall_app. split; [apply opening_plain|apply queries_plain].
  - eexists. split; [|by left].
    apply Forall_app. split; [apply opening_plain|apply queries_plain].
  - exists (opening c ++ map EvGetTokenInfo (pre ++ [s]))%list. split.
    + apply Forall_app. split; [apply opening_plain|apply queries_plain].
    + right. split; [done|]. eexists _, _. by rewrite <- app_assoc.
Qed.

(** X5.  [Configure] never calls [Finalize], [Destroy] or the pool's
    [Close].  In particular when it returns an error after [Initialize]
    has succeeded (the slot list or a token query failed, no token was
    found, or the session limit was exceeded), [Initialize] is among
    the calls it has made and nothing undoes it: the library is left
    initialized. *)
Theorem Configure_never_releases
    (New : string -> option Ctx) (p : option addr) (w : World) :
  exists es,
    calls_of (Configure New p w) = (calls w ++ es)%list
    /\ Forall (fun e => releases e = false) es
    /\ (forall a c lib e,
          p = Some a -> store w !! a = Some c ->
          New (Path c) = Some lib -> Initialize lib = None ->
          result_of (Configure New p w) = Ret (None, Some e) ->
          In EvInitialize es /\ ~ In EvFinalize es /\ ~ In EvDestroy es).
Proof.
  assert (Hno : forall es : list event,
             Forall (fun e => releases e = false) es ->
             ~ In EvFinalize es /\ ~ In EvDestroy es).
  { intros es Hes. rewrite List.Forall_forall in Hes.
    split; intros Hin; apply Hes in Hin; discriminate. }
  destruct p as [a|].
  2: { exists []. rewrite Configure_nil. unfold calls_of. simpl.
       rewrite app_nil_r. split; [done|]. split; [constructor|].
       intros ? ? ? ? [=]. }
  destruct (store w !! a) as [c|] eqn:Hc.
  2: { exists []. rewrite Configure_unallocated by done. unfold calls_of.
       simpl. rewrite app_nil_r. split; [done|]. split; [constructor|].
       intros a' c' lib e [= <-] Hc'. congruence. }
  destruct (Configure_returns New a c w Hc) as (r & es & Hrun & Hr).
  exists es. rewrite Hrun. unfold calls_of, result_of. cbn [fst snd logged calls].
  assert (Hes : Forall (fun e => releases e = false) es).
  { destruct (configured_calls _ _ _ _ _ Hr) as (plain & Hplain & Hes).
    assert (Hp : Forall (fun e => releases e = false) plain)
      by (eapply Forall_impl; [exact Hplain|by intros ? []]).
    destruct Hes as [[_ ->]|(_ & n & idle & ->)]; [done|].
    apply Forall_app. split; [done|]. by repeat constructor. }
  split; [done|]. split; [done|].
  intros a' c' lib e [= <-] Hc' Hnew Hinit [= ->].
  rewrite Hc in Hc'. injection Hc' as <-.
  split; [|by apply Hno].
  inversion Hr; subst; try congruence;
    unfold opening; cbn; auto.
Qed.

Lemma Configure_never_releases_witness :
  exists es,
    calls_of (Configure Sample.New (Some 1%nat)
                (Sample.world (Sample.conf "Z" "z" 8)))
    = ([] ++ es)%list
    /\ In EvInitialize es /\ ~ In EvFinalize es /\ ~ In EvDestroy es.
Proof.
  destruct (Configure_never_releases Sample.New (Some 1%nat)
              (Sample.world (Sample.conf "Z" "z" 8)))
    as (es & Hes & _ & H).
  exists es. split; [exact Hes|].
  exact (H 1%nat (Sample.conf "Z" "z" 8) (Sample.lib None) ErrTokenNotFound
           eq_refl eq_refl eq_refl eq_refl eq_refl).
Defined.

(** X6.  [Configure] constructs the pool exactly when it returns a
    context, as its last call and only once; on every error path no
    pool has been constructed. *)
Theorem Configure_pool_iff_context
    (New : string -> option Ctx) (p : option addr) (w w' : World)
    (oc : option Context) (oe : option error) :
  Configure New p w = (Ret (oc, oe), w') ->
  exists es,
    calls w' = (calls w ++ es)%list
    /\ (existsb constructs_pool es = true <-> is_Some oc)
    /\ (is_Some oc ->
        exists plain n idle,
          es = (plain ++ [EvNewResourcePool n n idle])%list
          /\ existsb constructs_pool plain = false).
Proof.
  intros H.
  destruct (Configure_ret_inv _ _ _ _ _ H) as (a & c & es & _ & _ & -> & Hr).
  exists es. split; [done|].
  destruct (configured_calls _ _ _ _ _ Hr) as (plain & Hplain & Hes).
  assert (Hp : existsb constructs_pool plain = false).
  { clear Hes. induction Hplain as [|e l [_ He] _ IH]; [done|].
    cbn. by rewrite He, IH. }
  cbn [fst] in Hes. destruct Hes as [[-> ->]|(Hoc & n & idle & ->)].
  - split.
    + rewrite Hp. split; [done|]. by intros [? [=]].
    + by intros [? [=]].
  - split.
    + rewrite existsb_app, Hp. cbn. done.
    + intros _. by exists plain, n, idle.
Qed.

Lemma Configure_pool_iff_context_witness :
  exists es,
    calls (snd (Configure Sample.New (Some 1%nat)
                  (Sample.world (Sample.conf "B" "" 2000))))
    = ([] ++ es)%list
    /\ (existsb constructs_pool es = true <-> is_Some (@None Context)).
Proof.
  destruct (Configure_pool_iff_context Sample.New (Some 1%nat)
              (Sample.world (Sample.conf "B" "" 2000))
              (snd (Configure Sample.New (Some 1%nat)
                      (Sample.world (Sample.conf "B" "" 2000))))
              None (Some (Errorf (session_limit_message 2000 1000))))
    as (es & Hes & Hiff & _).
  - vm_compute. reflexivity.
  - exists es. split; [exact Hes|exact Hiff].
Defined.

(** X7.  [Configure] returns [ErrCannotOpenPKCS11] exactly when
    [pkcs11.New] finds no module at the configured path; it has then
    made no other call, and the caller's struct has still been
    defaulted. *)
Theorem Configure_cannot_open_iff
    (New : string -> option Ctx) (a : addr) (c : PKCS11Config) (w : World) :
  store w !! a = Some c ->
  (result_of (Configure New (Some a) w) = Ret (None, Some ErrCannotOpenPKCS11)
   <-> New (Path c) = None)
  /\ (New (Path c) = None ->
      calls_of (Configure New (Some a) w) = (calls w ++ [EvNew (Path c)])%list
      /\ store_of (Configure New (Some a) w) !! a = Some (effective c)).
Proof.
  intros Hc. split; [split|].
  - intros H. apply result_of_inv in H.
    destruct (Configure_ret_inv _ _ _ _ _ H)
      as (a' & c' & es & [= <-] & Hc' & _ & Hr).
    rewrite Hc in Hc'. injection Hc' as <-.
    by inversion Hr.
  - intros Hnew. by rewrite (Configure_cannot_open New a c w Hc).
  - intros Hnew. rewrite (Configure_cannot_open New a c w Hc) by done.
    unfold calls_of, store_of. cbn [snd logged defaulted calls store].
    split; [done|]. apply lookup_insert_eq.
Qed.

Lemma Configure_cannot_open_iff_witness :
  result_of (Configure (fun _ => None) (Some 1%nat)
               (Sample.world (Sample.conf "A" "" 0)))
  = Ret (None, Some ErrCannotOpenPKCS11).
Proof.
  apply (proj1 (Configure_cannot_open_iff (fun _ => None) 1%nat
                  (Sample.conf "A" "" 0)
                  (Sample.world (Sample.conf "A" "" 0)) eq_refl)).
  reflexivity.
Defined.

(** X8.  [Configure] returns [ErrTokenNotFound] exactly when the module
    opens, initializes and lists its slots, and every listed slot can
    be queried and holds a token with neither the configured serial nor
    the configured label.  An empty slot list is such a case: with no
    token present, [Configure] returns [ErrTokenNotFound]. *)
Theorem Configure_token_not_found_iff
    (New : string -> option Ctx) (a : addr) (c : PKCS11Config) (w : World) :
  store w !! a = Some c ->
  (result_of (Configure New (Some a) w) = Ret (None, Some ErrTokenNotFound)
   <-> exists lib slots,
         New (Path c) = Some lib /\ Initialize lib = None
         /\ GetSlotList lib true = Ok slots
         /\ Forall (no_match lib (TokenSerial c) (TokenLabel c)) slots)
  /\ (forall lib,
        New (Path c) = Some lib -> Initialize lib = None ->
        GetSlotList lib true = Ok [] ->
        result_of (Configure New (Some a) w)
        = Ret (None, Some ErrTokenNotFound)).
Proof.
  intros Hc.
  assert (Hback : forall lib slots,
             New (Path c) = Some lib -> Initialize lib = None ->
             GetSlotList lib true = Ok slots ->
             Forall (no_match lib (TokenSerial c) (TokenLabel c)) slots ->
             result_of (Configure New (Some a) w)
             = Ret (None, Some ErrTokenNotFound)).
  { intros lib slots Hnew Hinit Hslots Hall.
    rewrite (Configure_lookup_failed New a c w Hc lib slots 0 None
               ErrTokenNotFound (map EvGetTokenInfo slots)); auto.
    intros inst w0 Hi. by apply (findToken_exhausted _ lib). }
  split; [split|].
  - intros H. apply result_of_inv in H.
    destruct (Configure_ret_inv _ _ _ _ _ H)
      as (a' & c' & es & [= <-] & Hc' & _ & Hr).
    rewrite Hc in Hc'. injection Hc' as <-.
    inversion Hr; subst. by exists lib, slots.
  - intros (lib & slots & Hnew & Hinit & Hslots & Hall). by eapply Hback.
  - intros lib Hnew Hinit Hslots. eapply Hback; eauto.
Qed.

Lemma Configure_token_not_found_iff_witness :
  result_of (Configure Sample.New (Some 1%nat)
               (Sample.world (Sample.conf "Z" "z" 8)))
  = Ret (None, Some ErrTokenNotFound)
  <-> exists lib slots,
        Sample.New (Path (Sample.conf "Z" "z" 8)) = Some lib
        /\ Initialize lib = None
        /\ GetSlotList lib true = Ok slots
        /\ Forall (no_match lib (TokenSerial (Sample.conf "Z" "z" 8))
                     (TokenLabel (Sample.conf "Z" "z" 8))) slots.
Proof.
  exact (proj1 (Configure_token_not_found_iff Sample.New 1%nat
                  (Sample.conf "Z" "z" 8)
                  (Sample.world (Sample.conf "Z" "z" 8)) eq_refl)).
Defined.






(** ** Close *)

Lemma Close_run c lib p w :
  ctx c = Some lib ->
  pool c = Some p ->
  Close c w
  = (Ret (of_rv (Finalize lib)),
     logged w ([EvPoolClose; EvFinalize]
               ++ match Finalize lib with
                  | None => [EvDestroy]
                  | Some _ => []
                  end)).
Proof.
  intros Hc Hp. unfold Close, pool_Close. rewrite Hp.
  erewrite bind_run by apply emit_run.
  rewrite (call_step _ lib) by done.
  destruct (Finalize lib) as [rv|]; cbn [of_rv].
  - unfold ret. by rewrite !logged_app.
  - rewrite (call_step _ lib) by done. unfold ret. by rewrite !logged_app.
Qed.

(** X10.  [Close] on a context that [Configure] returned does not
    panic: the context has a pool and the connection to the module that
    [Configure] opened.  [Close] closes the pool, finalizes that module
    and returns what [Finalize] answered, having destroyed the
    connection only if [Finalize] succeeded; it writes nothing to the
    store. *)
Theorem Close_after_Configure
    (New : string -> option Ctx) (p : option addr) (w w' : World)
    (inst : Context) (oe : option error) :
  Configure New p w = (Ret (Some inst, oe), w') ->
  exists a c lib,
    p = Some a /\ store w !! a = Some c
    /\ New (Path c) = Some lib /\ ctx inst = Some lib
    /\ Close inst w'
       = (Ret (of_rv (Finalize lib)),
          {| store := store w';
             calls := (calls w'
                       ++ [EvPoolClose; EvFinalize]
                       ++ match Finalize lib with
                          | None => [EvDestroy]
                          | Some _ => []
                          end)%list |}).
Proof.
  intros H.
  destruct (Configure_ret_inv _ _ _ _ _ H) as (a & c & es & -> & Hc & -> & Hr).
  inversion Hr; subst. exists a, c, lib.
  split; [done|]. split; [done|]. split; [done|]. split; [done|].
  by erewrite Close_run.
Qed.

Lemma Close_after_Configure_witness :
  exists a c lib,
    Some 1%nat = Some a
    /\ store (Sample.world (Sample.conf "A" "" 16)) !! a = Some c
    /\ Sample.New (Path c) = Some lib
    /\ ctx (Sample.built 16) = Some lib.
Proof.
  destruct (Close_after_Configure Sample.New (Some 1%nat)
              (Sample.world (Sample.conf "A" "" 16))
              (snd (Configure Sample.New (Some 1%nat)
                      (Sample.world (Sample.conf "A" "" 16))))
              (Sample.built 16) None)
    as (a & c & lib & Ha & Hc & Hnew & Hctx & _).
  - vm_compute. reflexivity.
  - by exists a, c, lib.
Defined.

(** ** Configuration files *)

Lemma new_addr_unused w : store w !! new_addr w = None.
Proof. unfold new_addr. apply not_elem_of_dom, is_fresh. Qed.

(** X11.  When the configuration file cannot be opened or cannot be
    decoded, [ConfigureFromFile] returns no context and the error of
    [os.Open] or of the decoder wrapped in a message, and [Configure]
    is not run: no PKCS#11 call is made and no struct that existed is
    changed.  If the file cannot be opened nothing else is done; if it
    cannot be decoded it has been closed, and [loadConfigFromFile]
    itself returns the new struct together with the error. *)
Theorem ConfigureFromFile_load_failure
    (Open : string -> answer File) (New : string -> option Ctx)
    (location : string) (fw : FileWorld) :
  (forall code,
      Open location = Fail code ->
      ConfigureFromFile Open New location fw
      = (Ret (None,
              Some (Wrapped (Foreign code)
                      ("could not open config file: " ++ location)%string)),
         {| world := world fw;
            files := (files fw ++ [EvOpen location])%list |}))
  /\ (forall file code,
        Open location = Ok file ->
        snd (Decode file zero_config) = Some code ->
        let r := ConfigureFromFile Open New location fw in
        fst r = Ret (None,
                     Some (Wrapped (Foreign code) "could decode config file:"))
        /\ calls (world (snd r)) = calls (world fw)
        /\ files (snd r)
           = (files fw ++ [EvOpen location; EvDecode; EvFileClose])%list
        /\ (forall b x, store (world fw) !! b = Some x ->
                        store (world (snd r)) !! b = Some x)
        /\ fst (loadConfigFromFile Open location fw)
           = (Some (new_addr (world fw)),
              Some (Wrapped (Foreign code) "could decode config file:"))).
Proof.
  split.
  - intros code Ho. unfold ConfigureFromFile, loadConfigFromFile.
    by rewrite Ho.
  - intros file code Ho Hd r. subst r.
    unfold ConfigureFromFile, loadConfigFromFile. rewrite Ho.
    cbv zeta. rewrite Hd. cbn.
    split; [done|]. split; [done|]. split; [done|]. split; [|done].
    intros b x Hb. rewrite lookup_insert_ne; [done|].
    intros <-. by rewrite new_addr_unused in Hb.
Qed.

Lemma ConfigureFromFile_load_failure_witness :
  ConfigureFromFile SampleFiles.Open Sample.New "none.json" SampleFiles.start
  = (Ret (None,
          Some (Wrapped (Foreign 2) "could not open config file: none.json")),
     {| world := world SampleFiles.start; files := [EvOpen "none.json"] |})
  /\ fst (ConfigureFromFile SampleFiles.Open Sample.New "bad.json"
            SampleFiles.start)
     = Ret (None, Some (Wrapped (Foreign 7) "could decode config file:")).
Proof.
  destruct (ConfigureFromFile_load_failure SampleFiles.Open Sample.New
              "none.json" SampleFiles.start) as [H1 _].
  destruct (ConfigureFromFile_load_failure SampleFiles.Open Sample.New
              "bad.json" SampleFiles.start) as [_ H2].
  split.
  - exact (H1 2 eq_refl).
  - exact (proj1 (H2 SampleFiles.bad 7 eq_refl eq_refl)).
Defined.



(** ** Configure, continued *)

(** X13.  [Configure] returns a return code of the PKCS#11 binding as
    its error exactly when the module opens and that code is what
    [Initialize] answered, or, after a successful [Initialize], what
    [GetSlotList] answered, or, with the slots listed, what
    [GetTokenInfo] answered for a slot reached before any match.  The
    code is passed on as it is. *)
Theorem Configure_binding_error_iff
    (New : string -> option Ctx) (a : addr) (c : PKCS11Config) (w : World)
    (rv : Z) :
  store w !! a = Some c ->
  result_of (Configure New (Some a) w) = Ret (None, Some (PKCS11Error rv))
  <-> exists lib,
        New (Path c) = Some lib
        /\ (Initialize lib = Some rv
            \/ (Initialize lib = None
                /\ (GetSlotList lib true = Fail rv
                    \/ exists slots pre s,
                         GetSlotList lib true = Ok slots
                         /\ query_fails lib slots (TokenSerial c)
                              (TokenLabel c) pre s rv))).
Proof.
  intros Hc. split.
  - intros H. apply result_of_inv in H.
    destruct (Configure_ret_inv _ _ _ _ _ H)
      as (a' & c' & es & [= <-] & Hc' & _ & Hr).
    rewrite Hc in Hc'. injection Hc' as <-.
    inversion Hr; subst; exists lib; (split; [done|]).
    + by left.
    + right. split; [done|]. by left.
    + right. split; [done|]. right. by exists slots, pre, s.
  - intros (lib & Hnew & [Hinit|(Hinit & [Hslots|(slots & pre & s & Hslots & Hq)])]).
    + by rewrite (Configure_initialize_failed New a c w Hc lib rv).
    + by rewrite (Configure_slot_list_failed New a c w Hc lib rv).
    + rewrite (Configure_lookup_failed New a c w Hc lib slots 0 None
                 (PKCS11Error rv) (map EvGetTokenInfo (pre ++ [s]))); auto.
      intros inst w0 Hi. by apply (findToken_query_fails _ lib).
Qed.

Lemma Configure_binding_error_iff_witness :
  result_of (Configure (fun _ => Some (Sample.lib None)) (Some 1%nat)
               (Sample.world (Sample.conf "Z" "z" 8)))
  = Ret (None, Some (PKCS11Error 3))
  <-> exists lib,
        Some (Sample.lib None) = Some lib
        /\ (Initialize lib = Some 3
            \/ (Initialize lib = None
                /\ (GetSlotList lib true = Fail 3
                    \/ exists slots pre s,
                         GetSlotList lib true = Ok slots
                         /\ query_fails lib slots "Z" "z" pre s 3))).
Proof.
  exact (Configure_binding_error_iff (fun _ => Some (Sample.lib None)) 1%nat
           (Sample.conf "Z" "z" 8) (Sample.world (Sample.conf "Z" "z" 8)) 3
           eq_refl).
Defined.


